(** * A shallow embedding of the unbounded mpsc channel of falgu-rs (src/lib.rs)

    The channel is a [Mutex<Shared<T>>] plus a [Condvar], jointly owned
    through an [Arc] by every [Sender] and the one [Receiver].  We model the
    whole channel as one state record; every public operation becomes a
    function on that record.  The critical sections of the source are short
    and never interleave with one another, so each operation is one atomic
    step; a [recv] that parks in [Condvar::wait] is an observable [Blocked]
    step, and the loop that re-checks after the wake-up is the next [recv]
    step (the read-ahead buffer is private to the receiver, so it is still
    empty when the parked receiver re-runs the check).

    Ghost fields record what the Rust type system and the condition
    variable keep implicit: the identities of the live [Sender] handles
    (ownership: only a live handle can be cloned, used or dropped), whether
    the [Receiver] still exists, and how many times [notify_one] was called. *)

From Stdlib Require Import List ZArith Lia Bool Arith.
Import ListNotations.
Open Scope Z_scope.

Section Channel.

Variable T : Type.

(** [struct Shared<T> { queue: VecDeque<T>, senders: usize }], the read-ahead
    [buffer] of the [Receiver], and the ghost fields. *)
Record chan := mkChan {
  queue : list T;            (* Shared::queue, front at the head *)
  senders : Z;               (* Shared::senders, a usize *)
  buffer : list T;           (* Receiver::buffer *)
  signals : nat;             (* ghost: calls of available.notify_one() *)
  handles : list nat;        (* ghost: identities of the live Sender handles *)
  next_handle : nat;         (* ghost: identity given to the next Sender *)
  rx_alive : bool            (* ghost: the Receiver has not been dropped *)
}.

(** [usize] subtraction as compiled with overflow checks: [senders -= 1]
    panics (here: [None]) when [senders] is already 0. *)
Definition usize_sub (a b : Z) : option Z :=
  if a <? b then None else Some (a - b).

(** [channel()]: [senders: 1], empty queue, empty buffer; the returned
    [Sender] gets identity 0. *)
Definition channel : chan :=
  mkChan [] 1 [] 0%nat [0%nat] 1%nat true.

(** [Sender::send]: lock, [queue.push_back(value)], unlock, [notify_one()]. *)
Definition send (st : chan) (value : T) : chan :=
  mkChan (queue st ++ [value]) (senders st) (buffer st) (S (signals st))
         (handles st) (next_handle st) (rx_alive st).

(** [<Sender as Clone>::clone]: lock, [senders += 1], unlock, new handle.
    [Arc::clone] aborts the process before the strong count exceeds
    [isize::MAX], so [senders += 1] cannot overflow a usize and is written
    unbounded. *)
Definition sender_clone (st : chan) : chan :=
  mkChan (queue st) (senders st + 1) (buffer st) (signals st)
         (next_handle st :: handles st) (S (next_handle st)) (rx_alive st).

(** [<Sender as Drop>::drop] of handle [h]: lock, [senders -= 1],
    [is_last = senders == 0], unlock, [notify_one()] if [is_last]. *)
Definition sender_drop (h : nat) (st : chan) : option chan :=
  match usize_sub (senders st) 1 with
  | None => None
  | Some s =>
      let is_last := s =? 0 in
      Some (mkChan (queue st) s (buffer st)
                   (if is_last then S (signals st) else signals st)
                   (remove Nat.eq_dec h (handles st)) (next_handle st)
                   (rx_alive st))
  end.

(** Outcomes of one pass of [Receiver::recv]. *)
Inductive outcome :=
| Got (v : T)      (* return Some(value) *)
| Eos              (* return None *)
| Blocked.         (* parked in available.wait(shared) *)

(** [Receiver::recv]: fast path on the buffer; otherwise, under the lock,
    [queue.pop_front()] and, on [Some value], [mem::swap(buffer, queue)]. *)
Definition recv (st : chan) : outcome * chan :=
  match buffer st with
  | value :: rest =>
      (Got value, mkChan (queue st) (senders st) rest (signals st)
                         (handles st) (next_handle st) (rx_alive st))
  | [] =>
      match queue st with
      | value :: rest =>
          (* after pop_front the queue is [rest]; swap it with the empty
             buffer *)
          let '(buf', q') := (rest, buffer st) in
          (Got value, mkChan q' (senders st) buf' (signals st)
                             (handles st) (next_handle st) (rx_alive st))
      | [] =>
          if senders st =? 0 then (Eos, st) else (Blocked, st)
      end
  end.

(** Dropping the [Receiver] frees its buffer; the shared state lives on in
    the [Arc] held by the senders. *)
Definition drop_receiver (st : chan) : chan :=
  mkChan (queue st) (senders st) [] (signals st)
         (handles st) (next_handle st) false.

(** The alternative receiver allowed by the design notes: pop one element
    at a time from the shared queue under the lock, no read-ahead buffer. *)
Definition recv_naive (st : chan) : outcome * chan :=
  match queue st with
  | value :: rest =>
      (Got value, mkChan rest (senders st) (buffer st) (signals st)
                         (handles st) (next_handle st) (rx_alive st))
  | [] => if senders st =? 0 then (Eos, st) else (Blocked, st)
  end.

(** Operations a program can perform on the channel. *)
Inductive op :=
| OSend (h : nat) (v : T)
| OClone (h : nat)
| ODrop (h : nat)
| ORecv
| ODropRx.

Inductive obs :=
| Done
| Recv (o : outcome).

Definition live (h : nat) (st : chan) : bool :=
  existsb (Nat.eqb h) (handles st).

(** One operation, with the receiver function as a parameter.  [None]: the
    operation is impossible (the handle is not owned, or the receiver is
    gone) or panics. *)
Definition exec_op_with (rv : chan -> outcome * chan) (o : op) (st : chan)
  : option (chan * obs) :=
  match o with
  | OSend h v => if live h st then Some (send st v, Done) else None
  | OClone h => if live h st then Some (sender_clone st, Done) else None
  | ODrop h =>
      if live h st then
        match sender_drop h st with
        | Some st' => Some (st', Done)
        | None => None
        end
      else None
  | ORecv => if rx_alive st then let '(r, st') := rv st in Some (st', Recv r)
             else None
  | ODropRx => if rx_alive st then Some (drop_receiver st, Done) else None
  end.

Fixpoint exec_with (rv : chan -> outcome * chan) (tr : list op) (st : chan)
  : option (chan * list obs) :=
  match tr with
  | [] => Some (st, [])
  | o :: tr' =>
      match exec_op_with rv o st with
      | None => None
      | Some (st1, r) =>
          match exec_with rv tr' st1 with
          | None => None
          | Some (st2, rs) => Some (st2, r :: rs)
          end
      end
  end.

Definition exec_op := exec_op_with recv.
Definition exec := exec_with recv.
Definition exec_naive := exec_with recv_naive.

(** Successive [recv] calls. *)
Fixpoint recv_many (n : nat) (st : chan) : list outcome * chan :=
  match n with
  | O => ([], st)
  | S n' =>
      let '(r, st1) := recv st in
      let '(rs, st2) := recv_many n' st1 in
      (r :: rs, st2)
  end.

Definition reachable (st : chan) : Prop :=
  exists tr rs, exec tr channel = Some (st, rs).

(** Values sent and not yet returned, in delivery order: the read-ahead
    buffer first, then the shared queue. *)
Definition pending (st : chan) : list T := buffer st ++ queue st.

(** A run of [send] calls, each on the given handle. *)
Definition sends (ss : list (nat * T)) : list op :=
  map (fun '(h, v) => OSend h v) ss.

(** The ghost handle list and the counter agree; identities are unique and
    below [next_handle]. *)
Definition Inv (st : chan) : Prop :=
  senders st = Z.of_nat (length (handles st)) /\ NoDup (handles st) /\
  (forall h, In h (handles st) -> (h < next_handle st)%nat).

(** A state of the batching receiver [sb] and one of the one-at-a-time
    receiver [sn] agree: the naive queue is the buffer followed by the queue
    while the receiver exists. *)
Definition related (sb sn : chan) : Prop :=
  senders sb = senders sn /\ signals sb = signals sn /\
  handles sb = handles sn /\ next_handle sb = next_handle sn /\
  rx_alive sb = rx_alive sn /\ buffer sn = [] /\
  (rx_alive sb = true -> queue sn = buffer sb ++ queue sb).

(** [<Receiver as Iterator>::next] is [self.recv()]. *)
Definition next (st : chan) : outcome * chan := recv st.

(** A [for val in rx] loop run with no other thread acting meanwhile:
    [next] until it returns [None] ([Eos]) or the thread parks ([Blocked]).
    [fuel] bounds the number of iterations; [None] means it ran out. *)
Fixpoint iter_collect (fuel : nat) (st : chan) : option (list T * outcome) :=
  match fuel with
  | O => None
  | S f =>
      match next st with
      | (Got v, st1) =>
          match iter_collect f st1 with
          | Some (vs, e) => Some (v :: vs, e)
          | None => None
          end
      | (o, _) => Some ([], o)
      end
  end.

(** Number of [notify_one] calls made by the last sender's drop. *)
Definition last_drop_signal (st : chan) : nat :=
  if senders st =? 0 then 1%nat else 0%nat.

(** The values passed to [send] by the operations of a run. *)
Fixpoint sent (tr : list op) : list T :=
  match tr with
  | [] => []
  | OSend _ v :: tr' => v :: sent tr'
  | _ :: tr' => sent tr'
  end.

(** The values returned by [recv] in the observations of a run. *)
Fixpoint received (rs : list obs) : list T :=
  match rs with
  | [] => []
  | Recv (Got v) :: rs' => v :: received rs'
  | _ :: rs' => received rs'
  end.

End Channel.

Arguments mkChan {T}.
Arguments queue {T}. Arguments senders {T}. Arguments buffer {T}.
Arguments signals {T}. Arguments handles {T}. Arguments next_handle {T}.
Arguments rx_alive {T}.
Arguments channel {T}. Arguments send {T}. Arguments sender_clone {T}.
Arguments sender_drop {T}. Arguments Got {T}. Arguments Eos {T}.
Arguments Blocked {T}. Arguments recv {T}. Arguments drop_receiver {T}.
Arguments recv_naive {T}. Arguments OSend {T}. Arguments OClone {T}.
Arguments ODrop {T}. Arguments ORecv {T}. Arguments ODropRx {T}.
Arguments Done {T}. Arguments Recv {T}. Arguments live {T}.
Arguments exec_op_with {T}. Arguments exec_with {T}. Arguments exec_op {T}.
Arguments exec {T}. Arguments exec_naive {T}. Arguments recv_many {T}.
Arguments reachable {T}. Arguments pending {T}. Arguments sends {T}.
Arguments Inv {T}. Arguments related {T}. Arguments next {T}.
Arguments iter_collect {T}. Arguments sent {T}. Arguments last_drop_signal {T}. Arguments received {T}.

(** The test [test_channel] of the source: 10, 12, 13, 14, then end. *)
Example test_channel_trace :
  exec [OSend 0 10; OSend 0 12; OSend 0 13; OSend 0 14; ODrop 0;
        ORecv; ORecv; ORecv; ORecv; ORecv] (@channel Z)
  = Some (mkChan [] 0 [] 5 [] 1 true,
          [Done; Done; Done; Done; Done; Recv (Got 10); Recv (Got 12);
           Recv (Got 13); Recv (Got 14); Recv Eos]).
Proof. reflexivity. Qed.

(** * Invariants of the reachable states *)

Section Proofs.

Variable T : Type.

Lemma live_In (h : nat) (st : chan T) : live h st = true <-> In h (handles st).
Proof.
  unfold live; rewrite existsb_exists; split.
  - intros [x [Hin Heq]]; apply Nat.eqb_eq in Heq; subst; exact Hin.
  - intros Hin; exists h; split; [exact Hin | apply Nat.eqb_refl].
Qed.

Lemma length_remove_NoDup (l : list nat) (x : nat) :
  NoDup l -> In x l -> length (remove Nat.eq_dec x l) = pred (length l).
Proof.
  induction l as [|a l IH]; simpl; intros Hnd Hin; [contradiction|].
  apply NoDup_cons_iff in Hnd as [Hna Hnd].
  destruct (Nat.eq_dec x a) as [->|Hne].
  - rewrite notin_remove by exact Hna; reflexivity.
  - destruct Hin as [->|Hin]; [congruence|].
    simpl; rewrite IH by assumption.
    destruct l; [contradiction | reflexivity].
Qed.

Lemma NoDup_remove_elt (l : list nat) (x : nat) :
  NoDup l -> NoDup (remove Nat.eq_dec x l).
Proof.
  induction l as [|a l IH]; simpl; intros Hnd; [constructor|].
  apply NoDup_cons_iff in Hnd as [Hna Hnd].
  destruct (Nat.eq_dec x a); [auto|].
  constructor; [|auto].
  intros Hin; apply in_remove in Hin as [Hin _]; contradiction.
Qed.

Lemma Inv_channel : Inv (@channel T).
Proof.
  repeat split; simpl.
  - repeat constructor; simpl; tauto.
  - intros h [<-|[]]; lia.
Qed.

Lemma recv_frame (st : chan T) :
  senders (snd (recv st)) = senders st /\
  handles (snd (recv st)) = handles st /\
  next_handle (snd (recv st)) = next_handle st /\
  rx_alive (snd (recv st)) = rx_alive st /\
  signals (snd (recv st)) = signals st.
Proof.
  unfold recv; destruct (buffer st), (queue st); simpl;
    try destruct (senders st =? 0); simpl; auto.
Qed.

Lemma sender_drop_senders (h : nat) (st st' : chan T) :
  sender_drop h st = Some st' -> senders st' = senders st - 1.
Proof.
  unfold sender_drop, usize_sub.
  destruct (senders st <? 1); intros E; inversion E; reflexivity.
Qed.

Lemma Inv_drop_some (h : nat) (st : chan T) :
  Inv st -> In h (handles st) ->
  exists st', sender_drop h st = Some st' /\ senders st >= 1.
Proof.
  intros [Hs _] Hin.
  assert (length (handles st) > 0)%nat
    by (destruct (handles st); [contradiction | simpl; lia]).
  unfold sender_drop, usize_sub.
  destruct (senders st <? 1) eqn:E; [apply Z.ltb_lt in E; lia|].
  eexists; split; [reflexivity | lia].
Qed.

Lemma Inv_op (o : op T) (st st' : chan T) (r : obs T) :
  Inv st -> exec_op o st = Some (st', r) -> Inv st'.
Proof.
  intros HI; pose proof HI as (Hs & Hnd & Hfr).
  unfold exec_op, exec_op_with; destruct o as [h v|h|h| |].
  - destruct (live h st); intros E; inversion E; subst; exact HI.
  - destruct (live h st); intros E; inversion E; subst; clear E.
    unfold Inv, sender_clone; simpl; repeat split.
    + rewrite Hs; lia.
    + constructor; [|exact Hnd]; intros Hin; specialize (Hfr _ Hin); lia.
    + intros h' [<-|Hin]; [lia | specialize (Hfr _ Hin); lia].
  - destruct (live h st) eqn:Hl; [|discriminate].
    apply live_In in Hl.
    destruct (sender_drop h st) as [st1|] eqn:Ed; intros E; inversion E; subst.
    pose proof (sender_drop_senders _ _ _ Ed) as Hs1.
    unfold sender_drop in Ed; destruct (usize_sub (senders st) 1); inversion Ed;
      subst; clear Ed.
    unfold Inv; simpl in *; repeat split.
    + rewrite length_remove_NoDup by assumption.
      assert (length (handles st) > 0)%nat
        by (destruct (handles st); [contradiction | simpl; lia]).
      lia.
    + apply NoDup_remove_elt; exact Hnd.
    + intros h' Hin; apply in_remove in Hin as [Hin _]; auto.
  - destruct (rx_alive st); [|discriminate].
    pose proof (recv_frame st) as (F1 & F2 & F3 & _).
    destruct (recv st) as [o st1]; intros E; inversion E; subst; simpl in *.
    unfold Inv; rewrite F1, F2, F3; exact HI.
  - destruct (rx_alive st); intros E; inversion E; subst; exact HI.
Qed.

Lemma Inv_exec (tr : list (op T)) (st st' : chan T) (rs : list (obs T)) :
  Inv st -> exec tr st = Some (st', rs) -> Inv st'.
Proof.
  unfold exec; revert st rs; induction tr as [|o tr IH]; simpl;
    intros st rs HI E.
  - inversion E; subst; exact HI.
  - destruct (exec_op_with recv o st) as [[st1 r]|] eqn:E1; [|discriminate].
    destruct (exec_with recv tr st1) as [[st2 rs2]|] eqn:E2; [|discriminate].
    inversion E; subst.
    apply (IH st1 rs2); [apply (Inv_op o st st1 r); assumption | exact E2].
Qed.

Lemma Inv_reachable (st : chan T) : reachable st -> Inv st.
Proof.
  intros (tr & rs & E); exact (Inv_exec tr channel st rs Inv_channel E).
Qed.

Lemma exec_cons (o : op T) (tr : list (op T)) (st : chan T) :
  exec (o :: tr) st =
  match exec_op o st with
  | None => None
  | Some (st1, r) =>
      match exec tr st1 with
      | None => None
      | Some (st2, rs) => Some (st2, r :: rs)
      end
  end.
Proof. reflexivity. Qed.

Lemma exec_sends_pending (ss : list (nat * T)) (st st1 : chan T)
      (rs : list (obs T)) :
  exec (sends ss) st = Some (st1, rs) -> pending st1 = pending st ++ map snd ss.
Proof.
  revert st rs; induction ss as [|[h v] ss IH]; intros st rs E.
  - inversion E; subst; simpl; rewrite app_nil_r; reflexivity.
  - simpl in E; rewrite exec_cons in E; unfold exec_op, exec_op_with in E.
    destruct (live h st); [|discriminate].
    destruct (exec (sends ss) (send st v)) as [[st2 rs2]|] eqn:E2;
      [|discriminate].
    inversion E; subst.
    rewrite (IH _ _ E2); unfold pending, send; simpl.
    rewrite <- !app_assoc; reflexivity.
Qed.

Lemma recv_pending (st : chan T) (v : T) (rest : list T) :
  pending st = v :: rest ->
  fst (recv st) = Got v /\ pending (snd (recv st)) = rest.
Proof.
  unfold pending, recv; destruct (buffer st) as [|b bs]; simpl.
  - intros ->; simpl; split; [reflexivity | apply app_nil_r].
  - intros E; inversion E; subst; split; reflexivity.
Qed.

Lemma recv_many_pending (n : nat) (st : chan T) :
  (n <= length (pending st))%nat ->
  fst (recv_many n st) = map Got (firstn n (pending st)).
Proof.
  revert st; induction n as [|n IH]; intros st Hn; [reflexivity|].
  destruct (pending st) as [|v rest] eqn:Ep; [simpl in Hn; lia|].
  destruct (recv_pending st v rest Ep) as [E1 E2].
  simpl; destruct (recv st) as [r st1]; simpl in E1, E2; subst r.
  destruct (recv_many n st1) as [rs st2] eqn:Em; simpl.
  f_equal.
  rewrite <- E2, <- (IH st1); [rewrite Em; reflexivity|].
  rewrite E2; simpl in Hn; lia.
Qed.

Lemma recv_eos_inv (st : chan T) :
  fst (recv st) = Eos -> senders st = 0 /\ buffer st = [] /\ queue st = [].
Proof.
  unfold recv; destruct (buffer st), (queue st); simpl; try discriminate.
  destruct (senders st =? 0) eqn:E; [|discriminate].
  apply Z.eqb_eq in E; auto.
Qed.

(** A channel with no live sender and nothing left to deliver. *)
Lemma exhausted_exec (tr : list (op T)) (st st' : chan T) (rs : list (obs T)) :
  senders st = 0 -> handles st = [] -> queue st = [] -> buffer st = [] ->
  exec tr st = Some (st', rs) ->
  senders st' = 0 /\ handles st' = [] /\ queue st' = [] /\ buffer st' = [].
Proof.
  revert st rs; induction tr as [|o tr IH]; intros st rs Hs Hh Hq Hb E.
  - inversion E; subst; auto.
  - rewrite exec_cons in E; unfold exec_op, exec_op_with in E.
    assert (Hl : forall h, live h st = false) by (intros h; unfold live; rewrite Hh; reflexivity).
    destruct o as [h v|h|h| |]; try (rewrite Hl in E; discriminate).
    + destruct (rx_alive st); [|discriminate].
      unfold recv in E; rewrite Hb, Hq, Hs in E; simpl in E.
      destruct (exec tr st) as [[st2 rs2]|] eqn:E2; [|discriminate].
      inversion E; subst; eapply IH; eauto.
    + destruct (rx_alive st); [|discriminate].
      destruct (exec tr (drop_receiver st)) as [[st2 rs2]|] eqn:E2; [|discriminate].
      inversion E; subst; eapply IH; [| | | |exact E2]; unfold drop_receiver; simpl; auto.
Qed.

Lemma related_op (o : op T) (sb sn : chan T) :
  related sb sn ->
  match exec_op_with recv o sb, exec_op_with recv_naive o sn with
  | Some (sb', r), Some (sn', r') => r = r' /\ related sb' sn'
  | None, None => True
  | _, _ => False
  end.
Proof.
  destruct sb as [qb nb bb gb hb xb rb], sn as [qn nn bn gn hn xn rn].
  unfold related; simpl; intros (-> & -> & -> & -> & -> & -> & Hq).
  destruct o as [h v|h|h| |]; simpl.
  - unfold live; simpl; destruct (existsb (Nat.eqb h) hn); [|exact I].
    split; [reflexivity|]; unfold related; simpl; repeat split.
    intros Hr; rewrite (Hq Hr), <- app_assoc; reflexivity.
  - unfold live; simpl; destruct (existsb (Nat.eqb h) hn); [|exact I].
    split; [reflexivity|]; unfold related; simpl; repeat split; auto.
  - unfold live; simpl; destruct (existsb (Nat.eqb h) hn); [|exact I].
    unfold sender_drop; simpl; destruct (usize_sub nn 1); [|exact I].
    split; [reflexivity|]; unfold related; simpl; repeat split; auto.
  - destruct rn; [|exact I].
    specialize (Hq eq_refl); subst qn.
    unfold recv, recv_naive; simpl.
    destruct bb as [|b bb]; simpl.
    + destruct qb as [|q qb]; simpl.
      * destruct (nn =? 0); (split; [reflexivity|]);
          unfold related; simpl; repeat split; auto.
      * split; [reflexivity|]; unfold related; simpl; repeat split; auto.
        intros _; rewrite app_nil_r; reflexivity.
    + split; [reflexivity|]; unfold related; simpl; repeat split; auto.
  - destruct rn; [|exact I].
    split; [reflexivity|]; unfold related, drop_receiver; simpl;
      repeat split; auto; discriminate.
Qed.

Lemma related_exec (tr : list (op T)) (sb sn : chan T) :
  related sb sn ->
  option_map snd (exec tr sb) = option_map snd (exec_naive tr sn).
Proof.
  unfold exec, exec_naive; revert sb sn; induction tr as [|o tr IH];
    intros sb sn HR; [reflexivity|].
  simpl; pose proof (related_op o sb sn HR) as Ho.
  destruct (exec_op_with recv o sb) as [[sb1 r]|],
           (exec_op_with recv_naive o sn) as [[sn1 r']|];
    try contradiction; [|reflexivity].
  destruct Ho as [<- HR1]; specialize (IH sb1 sn1 HR1).
  destruct (exec_with recv tr sb1) as [[sb2 rs]|],
           (exec_with recv_naive tr sn1) as [[sn2 rs']|];
    simpl in IH; try discriminate; [|reflexivity].
  inversion IH; reflexivity.
Qed.

End Proofs.

(** * The claims *)

Section Claims.

Variable T : Type.

(** C1 (FIFO delivery): starting with nothing pending, after any run of
    [send] calls on any live Sender handles, as many [recv] calls return
    exactly the sent values, in the order the sends were performed. *)
Theorem fifo_delivery (st st1 : chan T) (ss : list (nat * T))
        (rs : list (obs T)) :
  buffer st = [] -> queue st = [] ->
  exec (sends ss) st = Some (st1, rs) ->
  fst (recv_many (length ss) st1) = map Got (map snd ss).
Proof.
  intros Hb Hq E.
  pose proof (exec_sends_pending T ss st st1 rs E) as Hp.
  unfold pending in Hp at 2; rewrite Hb, Hq in Hp; simpl in Hp.
  rewrite recv_many_pending by (rewrite Hp, length_map; lia).
  rewrite Hp, firstn_all2 by (rewrite length_map; lia); reflexivity.
Qed.

(** C2 (end-of-stream condition): [recv] returns end-of-stream exactly when
    the sender count is zero and the read-ahead buffer and the shared queue
    are both empty. *)
Theorem recv_eos_iff (st : chan T) :
  fst (recv st) = Eos <-> senders st = 0 /\ buffer st = [] /\ queue st = [].
Proof.
  unfold recv; destruct (buffer st) as [|b bs], (queue st) as [|q qs];
    simpl; try (split; [discriminate | intros (_ & H & H'); discriminate]).
  destruct (senders st =? 0) eqn:E; simpl.
  - apply Z.eqb_eq in E; tauto.
  - apply Z.eqb_neq in E; split; [discriminate | tauto].
Qed.

(** C3 (end-of-stream is permanent): in a reachable state, once [recv]
    returns end-of-stream, every state reached afterwards by any further
    operations again answers [recv] with end-of-stream, without changing
    the state (no blocking). *)
Theorem eos_permanent (st st1 st2 : chan T) (tr : list (op T))
        (rs : list (obs T)) :
  reachable st -> recv st = (Eos, st1) -> exec tr st1 = Some (st2, rs) ->
  recv st2 = (Eos, st2).
Proof.
  intros Hr E1 E2.
  destruct (recv_eos_inv T st (f_equal fst E1)) as (Hs & Hb & Hq).
  assert (st1 = st) as ->.
  { unfold recv in E1; rewrite Hb, Hq, Hs in E1; simpl in E1.
    inversion E1; reflexivity. }
  destruct (Inv_reachable T st Hr) as (Hsh & _ & _).
  assert (Hh : handles st = []).
  { destruct (handles st); [reflexivity | simpl in Hsh; lia]. }
  destruct (exhausted_exec T tr st st2 rs Hs Hh Hq Hb E2) as (Hs2 & _ & Hq2 & Hb2).
  unfold recv; rewrite Hb2, Hq2, Hs2; reflexivity.
Qed.

(** C4 (live-sender accounting): [channel()] starts with count 1, one
    handle, empty queue and buffer; in every state reached from it the
    count equals the number of live Sender handles (all distinct), cloning
    a live handle adds exactly one to both, and dropping one removes
    exactly one from both. *)
Theorem senders_count_exact (tr : list (op T)) (st : chan T)
        (rs : list (obs T)) :
  exec tr channel = Some (st, rs) ->
  (senders (@channel T) = 1 /\ handles (@channel T) = [0%nat] /\
   queue (@channel T) = [] /\ buffer (@channel T) = []) /\
  senders st = Z.of_nat (length (handles st)) /\ NoDup (handles st) /\
  (forall h, In h (handles st) ->
     exists st', exec_op (OClone h) st = Some (st', Done) /\
       senders st' = senders st + 1 /\
       length (handles st') = S (length (handles st))) /\
  (forall h, In h (handles st) ->
     exists st', exec_op (ODrop h) st = Some (st', Done) /\
       senders st' = senders st - 1 /\
       length (handles st') = pred (length (handles st))).
Proof.
  intros E.
  assert (HI : Inv st) by (apply Inv_reachable; exists tr, rs; exact E).
  destruct HI as (Hs & Hnd & Hfr).
  split; [repeat split|]; split; [exact Hs|]; split; [exact Hnd|]; split.
  - intros h Hin; exists (sender_clone st); unfold exec_op, exec_op_with.
    apply live_In in Hin; rewrite Hin; repeat split.
  - intros h Hin.
    destruct (Inv_drop_some T h st (conj Hs (conj Hnd Hfr)) Hin) as (st' & Ed & _).
    exists st'; unfold exec_op, exec_op_with.
    pose proof Hin as Hl; apply live_In in Hl; rewrite Hl, Ed; split; [reflexivity|].
    split; [apply (sender_drop_senders T h st st' Ed)|].
    unfold sender_drop in Ed; destruct (usize_sub (senders st) 1); inversion Ed; subst.
    simpl; apply length_remove_NoDup; assumption.
Qed.

(** C5 (last-drop signalling): a [Sender] drop lowers the count by one and
    calls [notify_one] once exactly when the new count is zero, and not at
    all otherwise. *)
Theorem drop_signals_last (h : nat) (st st' : chan T) :
  sender_drop h st = Some st' ->
  senders st' = senders st - 1 /\
  (senders st' = 0 -> signals st' = S (signals st)) /\
  (senders st' <> 0 -> signals st' = signals st).
Proof.
  intros Ed; pose proof (sender_drop_senders T h st st' Ed) as Hs.
  unfold sender_drop in Ed; destruct (usize_sub (senders st) 1) as [s|];
    inversion Ed; subst; simpl in *.
  split; [exact Hs|]; split; intros Hz.
  - rewrite Hz; reflexivity.
  - apply Z.eqb_neq in Hz; rewrite Hz; reflexivity.
Qed.

(** C6 (send contract): on a live handle [send] always completes with no
    receive outcome, its only effect is appending the value to the shared
    queue and one [notify_one], and it does the same after the [Receiver]
    has been dropped. *)
Theorem send_contract (st : chan T) (h : nat) (v : T) :
  live h st = true ->
  exec_op (OSend h v) st = Some (send st v, Done) /\
  send st v = mkChan (queue st ++ [v]) (senders st) (buffer st)
                     (S (signals st)) (handles st) (next_handle st)
                     (rx_alive st) /\
  exec_op (OSend h v) (drop_receiver st) =
    Some (drop_receiver (send st v), Done) /\
  queue (send (drop_receiver st) v) = queue st ++ [v].
Proof.
  intros Hl; unfold exec_op, exec_op_with.
  assert (Hl' : live h (drop_receiver st) = true) by exact Hl.
  rewrite Hl, Hl'; repeat split.
Qed.

(** C7 (slow-path drain): with an empty buffer and a non-empty shared
    queue, [recv] returns the queue's first element, the buffer becomes the
    rest of the queue, and the shared queue becomes empty. *)
Theorem recv_slow_path (st : chan T) (v : T) (rest : list T) :
  buffer st = [] -> queue st = v :: rest ->
  recv st = (Got v, mkChan [] (senders st) rest (signals st) (handles st)
                           (next_handle st) (rx_alive st)).
Proof. intros Hb Hq; unfold recv; rewrite Hb, Hq; reflexivity. Qed.

(** C8 (fast-path frame): with a non-empty buffer, [recv] pops its front
    element and leaves the shared queue and the sender count unchanged. *)
Theorem recv_fast_path (st : chan T) (v : T) (rest : list T) :
  buffer st = v :: rest ->
  recv st = (Got v, mkChan (queue st) (senders st) rest (signals st)
                           (handles st) (next_handle st) (rx_alive st)) /\
  queue (snd (recv st)) = queue st /\ senders (snd (recv st)) = senders st.
Proof. intros Hb; unfold recv; rewrite Hb; repeat split. Qed.

(** C9 (batching is an optimisation): for every sequence of operations from
    [channel()], the batching receiver and the one-at-a-time receiver give
    the same observations (values, end-of-stream and blocking points) and
    accept or refuse the same operations. *)
Theorem batching_refines_naive (tr : list (op T)) :
  option_map snd (exec tr channel) = option_map snd (exec_naive tr channel).
Proof.
  apply related_exec; unfold related; simpl; repeat split; auto.
Qed.

(** C10 (no underflow): in every reachable state the count is non-negative,
    and while a live Sender exists it is at least 1, so the [senders -= 1]
    of its drop does not underflow. *)
Theorem drop_no_underflow (st : chan T) :
  reachable st ->
  senders st >= 0 /\
  (forall h, In h (handles st) ->
     senders st >= 1 /\ exists st', sender_drop h st = Some st').
Proof.
  intros Hr; pose proof (Inv_reachable T st Hr) as HI.
  split; [destruct HI as (Hs & _); lia|].
  intros h Hin; destruct (Inv_drop_some T h st HI Hin) as (st' & Ed & Hge).
  split; [exact Hge | exists st'; exact Ed].
Qed.

End Claims.

(** * Witnesses: the hypotheses of the claims hold at concrete states *)

Definition two_sent : chan Z := mkChan [10; 12] 1 [] 2 [0%nat] 1%nat true.
Definition all_dropped : chan Z := mkChan [] 0 [] 1 [] 1%nat true.

Lemma fifo_delivery_witness :
  buffer (@channel Z) = [] /\ queue (@channel Z) = [] /\
  exec (sends [(0%nat, 10); (0%nat, 12)]) channel = Some (two_sent, [Done; Done]) /\
  fst (recv_many 2 two_sent) = [Got 10; Got 12].
Proof.
  split; [reflexivity|]; split; [reflexivity|]; split; [reflexivity|].
  exact (fifo_delivery Z channel two_sent [(0%nat, 10); (0%nat, 12)]
           [Done; Done] eq_refl eq_refl eq_refl).
Defined.

Lemma eos_permanent_witness :
  reachable all_dropped /\ recv all_dropped = (Eos, all_dropped) /\
  exec [ORecv; ORecv] all_dropped = Some (all_dropped, [Recv Eos; Recv Eos]) /\
  recv all_dropped = (Eos, all_dropped).
Proof.
  assert (Hr : reachable all_dropped)
    by (exists [ODrop 0%nat], [Done]; reflexivity).
  split; [exact Hr|]; split; [reflexivity|]; split; [reflexivity|].
  exact (eos_permanent Z all_dropped all_dropped all_dropped [ORecv; ORecv]
           [Recv Eos; Recv Eos] Hr eq_refl eq_refl).
Defined.

Lemma senders_count_exact_witness :
  exec [OClone 0%nat; OClone 1%nat; ODrop 0%nat] (@channel Z)
    = Some (mkChan [] 2 [] 0 [2%nat; 1%nat] 3%nat true, [Done; Done; Done]) /\
  senders (mkChan (T := Z) [] 2 [] 0 [2%nat; 1%nat] 3%nat true) = 2.
Proof.
  split; [reflexivity|].
  destruct (senders_count_exact Z [OClone 0%nat; OClone 1%nat; ODrop 0%nat]
              (mkChan [] 2 [] 0 [2%nat; 1%nat] 3%nat true) [Done; Done; Done]
              eq_refl) as (_ & Hs & _).
  rewrite Hs; reflexivity.
Defined.

Lemma drop_signals_last_witness :
  sender_drop 0%nat (@channel Z) = Some all_dropped /\
  senders all_dropped = senders (@channel Z) - 1 /\ signals all_dropped = 1%nat.
Proof.
  split; [reflexivity|].
  destruct (drop_signals_last Z 0%nat channel all_dropped eq_refl)
    as (Hs & Hz & _).
  split; [exact Hs | apply Hz; reflexivity].
Defined.

Lemma send_contract_witness :
  live 0%nat (drop_receiver (@channel Z)) = true /\
  queue (send (drop_receiver (drop_receiver (@channel Z))) 1) = [1].
Proof.
  split; [reflexivity|].
  destruct (send_contract Z (drop_receiver channel) 0%nat 1 eq_refl)
    as (_ & _ & _ & Hq).
  exact Hq.
Defined.

Lemma recv_slow_path_witness :
  buffer two_sent = [] /\ queue two_sent = [10; 12] /\
  recv two_sent = (Got 10, mkChan [] 1 [12] 2 [0%nat] 1%nat true).
Proof.
  split; [reflexivity|]; split; [reflexivity|].
  exact (recv_slow_path Z two_sent 10 [12] eq_refl eq_refl).
Defined.

Lemma recv_fast_path_witness :
  buffer (mkChan (T := Z) [] 1 [12] 2 [0%nat] 1%nat true) = [12] /\
  queue (snd (recv (mkChan (T := Z) [] 1 [12] 2 [0%nat] 1%nat true))) = [].
Proof.
  split; [reflexivity|].
  destruct (recv_fast_path Z (mkChan [] 1 [12] 2 [0%nat] 1%nat true) 12 []
              eq_refl) as (_ & Hq & _).
  exact Hq.
Defined.

Lemma drop_no_underflow_witness :
  reachable two_sent /\ senders two_sent >= 1.
Proof.
  assert (Hr : reachable two_sent)
    by (exists (sends [(0%nat, 10); (0%nat, 12)]), [Done; Done]; reflexivity).
  split; [exact Hr|].
  destruct (drop_no_underflow Z two_sent Hr) as (_ & H).
  destruct (H 0%nat (or_introl eq_refl)) as (Hge & _); exact Hge.
Defined.

(** * Further properties of the code *)

Section Extras.

Variable T : Type.

Lemma recv_received (st : chan T) :
  received [Recv (fst (recv st))] ++ pending (snd (recv st)) = pending st.
Proof.
  unfold recv, pending.
  destruct (buffer st) as [|b bs] eqn:Eb, (queue st) as [|q qs] eqn:Eq;
    simpl; try reflexivity; try (rewrite app_nil_r; reflexivity).
  destruct (senders st =? 0); simpl; rewrite Eb, Eq; reflexivity.
Qed.

Lemma rx_alive_op (o : op T) (st st1 : chan T) (r : obs T) :
  exec_op o st = Some (st1, r) -> rx_alive st1 = true -> rx_alive st = true.
Proof.
  unfold exec_op, exec_op_with; destruct o as [h v|h|h| |].
  - destruct (live h st); intros E; inversion E; subst; auto.
  - destruct (live h st); intros E; inversion E; subst; auto.
  - destruct (live h st); [|discriminate].
    unfold sender_drop; destruct (usize_sub (senders st) 1);
      intros E; inversion E; subst; auto.
  - destruct (rx_alive st); [auto | discriminate].
  - destruct (rx_alive st); [auto | discriminate].
Qed.

Lemma conserve_op (o : op T) (st st1 : chan T) (r : obs T) :
  exec_op o st = Some (st1, r) -> rx_alive st1 = true ->
  received [r] ++ pending st1 = pending st ++ sent [o].
Proof.
  unfold exec_op, exec_op_with; destruct o as [h v|h|h| |]; simpl.
  - destruct (live h st); intros E; inversion E; subst; intros _.
    unfold pending, send; simpl; rewrite app_assoc; reflexivity.
  - destruct (live h st); intros E; inversion E; subst; intros _.
    rewrite app_nil_r; reflexivity.
  - destruct (live h st); [|discriminate].
    unfold sender_drop; destruct (usize_sub (senders st) 1);
      intros E; inversion E; subst; intros _.
    rewrite app_nil_r; reflexivity.
  - destruct (rx_alive st); [|discriminate].
    pose proof (recv_received st) as Hr.
    destruct (recv st) as [o st2]; intros E; inversion E; subst; intros _.
    rewrite app_nil_r; exact Hr.
  - destruct (rx_alive st); intros E; inversion E; subst; discriminate.
Qed.

Lemma Inv_live_pos (h : nat) (st : chan T) :
  Inv st -> In h (handles st) -> senders st >= 1.
Proof.
  intros [Hs _] Hin; destruct (handles st); [contradiction | simpl in Hs; lia].
Qed.

Lemma signals_op (o : op T) (st st1 : chan T) (r : obs T) :
  Inv st -> exec_op o st = Some (st1, r) ->
  (signals st1 + last_drop_signal st =
   signals st + length (sent [o]) + last_drop_signal st1)%nat.
Proof.
  intros HI; unfold exec_op, exec_op_with, last_drop_signal;
    destruct o as [h v|h|h| |]; simpl.
  - destruct (live h st); intros E; inversion E; subst; simpl; lia.
  - destruct (live h st) eqn:Hl; intros E; inversion E; subst; simpl.
    apply live_In, (Inv_live_pos h st HI) in Hl.
    destruct (senders st =? 0) eqn:E0; [apply Z.eqb_eq in E0; lia|].
    destruct (senders st + 1 =? 0) eqn:E1; [apply Z.eqb_eq in E1; lia|]; lia.
  - destruct (live h st) eqn:Hl; [|discriminate].
    apply live_In, (Inv_live_pos h st HI) in Hl.
    unfold sender_drop, usize_sub.
    destruct (senders st <? 1); intros E; inversion E; subst; simpl.
    destruct (senders st =? 0) eqn:E0; [apply Z.eqb_eq in E0; lia|].
    destruct (senders st - 1 =? 0); lia.
  - destruct (rx_alive st); [|discriminate].
    pose proof (recv_frame T st) as (F1 & _ & _ & _ & F5).
    destruct (recv st) as [o st2]; intros E; inversion E; subst; simpl in *.
    rewrite F1, F5; lia.
  - destruct (rx_alive st); intros E; inversion E; subst; simpl; lia.
Qed.

(** X1: conservation under any interleaving of operations: while the
    [Receiver] exists, the values returned by [recv] followed by the values
    still buffered or queued are exactly the values that were pending before
    followed by the values sent, in send order. *)
Theorem sent_received_pending (tr : list (op T)) (st st' : chan T)
        (rs : list (obs T)) :
  exec tr st = Some (st', rs) -> rx_alive st' = true ->
  received rs ++ pending st' = pending st ++ sent tr.
Proof.
  revert st rs; induction tr as [|o tr IH]; intros st rs E Ha.
  - inversion E; subst; simpl; rewrite app_nil_r; reflexivity.
  - rewrite exec_cons in E.
    destruct (exec_op o st) as [[st1 r]|] eqn:E1; [|discriminate].
    destruct (exec tr st1) as [[st2 rs2]|] eqn:E2; [|discriminate].
    inversion E; subst.
    assert (Ha1 : rx_alive st1 = true).
    { clear IH E E1; revert st1 rs2 E2; induction tr as [|o' tr IH2];
        intros st1 rs2 E2.
      - inversion E2; subst; exact Ha.
      - rewrite exec_cons in E2.
        destruct (exec_op o' st1) as [[st3 r3]|] eqn:E3; [|discriminate].
        destruct (exec tr st3) as [[st4 rs4]|] eqn:E4; [|discriminate].
        inversion E2; subst.
        apply (rx_alive_op o' st1 st3 r3 E3), (IH2 st3 rs4 E4). }
    pose proof (conserve_op o st st1 r E1 Ha1) as Hc.
    specialize (IH st1 rs2 E2 Ha).
    change (o :: tr) with ([o] ++ tr).
    replace (sent ([o] ++ tr)) with (sent [o] ++ sent tr)
      by (destruct o; reflexivity).
    change (Recv ?x :: rs2) with ([Recv x] ++ rs2) in *.
    replace (received (r :: rs2)) with (received [r] ++ received rs2)
      by (destruct r as [|[]]; reflexivity).
    rewrite <- app_assoc, IH, app_assoc, Hc, <- app_assoc; reflexivity.
Qed.

(** X2: [notify_one] accounting: from [channel()], the condition variable
    has been signalled once per [send] plus once more exactly when the
    sender count has reached zero. *)
Theorem signals_count (tr : list (op T)) (st : chan T) (rs : list (obs T)) :
  exec tr channel = Some (st, rs) ->
  signals st = (length (sent tr) + last_drop_signal st)%nat.
Proof.
  intros E.
  assert (Hgen : forall (tr : list (op T)) (st0 st : chan T) (rs : list (obs T)),
            Inv st0 -> exec tr st0 = Some (st, rs) ->
            (signals st + last_drop_signal st0 =
             signals st0 + length (sent tr) + last_drop_signal st)%nat).
  { clear tr st rs E; induction tr as [|o tr IH]; intros st0 st rs HI E.
    - inversion E; subst; simpl; lia.
    - rewrite exec_cons in E.
      destruct (exec_op o st0) as [[st1 r]|] eqn:E1; [|discriminate].
      destruct (exec tr st1) as [[st2 rs2]|] eqn:E2; [|discriminate].
      inversion E; subst.
      pose proof (signals_op o st0 st1 r HI E1) as H1.
      pose proof (IH st1 st rs2 (Inv_op T o st0 st1 r HI E1) E2) as H2.
      replace (length (sent (o :: tr))) with
        (length (sent [o]) + length (sent tr))%nat
        by (destruct o; reflexivity).
      lia. }
  pose proof (Hgen tr channel st rs (Inv_channel T) E) as H.
  unfold last_drop_signal at 1 in H; simpl in H; lia.
Qed.

(** X3: no lost wake-up: if the receiver is parked in [wait] and another
    operation changes the state so that its re-check would no longer block,
    that operation has called [notify_one] exactly once. *)
Theorem no_lost_wakeup (o : op T) (st st' : chan T) :
  reachable st -> recv st = (Blocked, st) ->
  exec_op o st = Some (st', Done) -> fst (recv st') <> Blocked ->
  signals st' = S (signals st).
Proof.
  intros Hr Hb.
  pose proof (Inv_reachable T st Hr) as [Hs _].
  unfold recv in Hb.
  destruct (buffer st) eqn:Eb; [|discriminate].
  destruct (queue st) eqn:Eq; [|discriminate].
  destruct (senders st =? 0) eqn:E0; [discriminate|]; apply Z.eqb_neq in E0.
  unfold exec_op, exec_op_with; destruct o as [h v|h|h| |].
  - destruct (live h st); intros E; inversion E; subst; reflexivity.
  - destruct (live h st); intros E; inversion E; subst; clear E.
    unfold recv, sender_clone; simpl; rewrite Eb, Eq.
    destruct (senders st + 1 =? 0) eqn:E1; [apply Z.eqb_eq in E1; lia|].
    simpl; congruence.
  - destruct (live h st); [|discriminate].
    unfold sender_drop; destruct (usize_sub (senders st) 1) as [s|];
      intros E; inversion E; subst; clear E.
    unfold recv; simpl; rewrite Eb, Eq.
    destruct (s =? 0); simpl; [reflexivity | congruence].
  - destruct (rx_alive st); [|discriminate].
    destruct (recv st); intros E; inversion E.
  - destruct (rx_alive st); intros E; inversion E; subst; clear E.
    unfold recv, drop_receiver; simpl; rewrite Eq.
    apply Z.eqb_neq in E0; rewrite E0; simpl; congruence.
Qed.

(** X4: [recv] never reports end-of-stream while some [Sender] is alive. *)
Theorem no_eos_while_sender_live (st : chan T) (h : nat) :
  reachable st -> In h (handles st) -> fst (recv st) <> Eos.
Proof.
  intros Hr Hin.
  pose proof (Inv_live_pos h st (Inv_reachable T st Hr) Hin) as Hge.
  unfold recv; destruct (buffer st), (queue st); simpl; try discriminate.
  destruct (senders st =? 0) eqn:E; [apply Z.eqb_eq in E; lia | discriminate].
Qed.

(** X5: a [for val in rx] loop with no concurrent activity yields exactly the
    pending values in order, then ends ([next] returns [None]) if no [Sender]
    is alive, and parks otherwise. *)
Theorem iterate_pending (st : chan T) :
  reachable st ->
  iter_collect (S (length (pending st))) st =
  Some (pending st, match handles st with [] => Eos | _ => Blocked end).
Proof.
  intros Hr; pose proof (Inv_reachable T st Hr) as [Hs _].
  remember (pending st) as p eqn:Ep; symmetry in Ep.
  clear Hr; revert st Hs Ep; induction p as [|v p IH]; intros st Hs Ep.
  - simpl; unfold next, recv.
    unfold pending in Ep; apply app_eq_nil in Ep as [-> ->].
    destruct (handles st) as [|h hs]; simpl in Hs; rewrite Hs; reflexivity.
  - replace (iter_collect (S (length (v :: p))) st) with
      (match next st with
       | (Got v', st1) =>
           match iter_collect (S (length p)) st1 with
           | Some (vs, e) => Some (v' :: vs, e)
           | None => None
           end
       | (o, _) => Some ([], o)
       end) by reflexivity.
    destruct (recv_pending T st v p Ep) as [E1 E2].
    pose proof (recv_frame T st) as (F1 & F2 & _).
    unfold next; destruct (recv st) as [r st1]; simpl in E1, E2, F1, F2; subst r.
    rewrite (IH st1); [rewrite F2; reflexivity | rewrite F1, F2; exact Hs | exact E2].
Qed.

(** X6: in a reachable state [recv] parks exactly when nothing is pending
    and some [Sender] is alive; when something is pending it returns the
    oldest pending value. *)
Theorem recv_blocks_iff (st : chan T) :
  reachable st ->
  (fst (recv st) = Blocked <-> pending st = [] /\ handles st <> []) /\
  (forall v rest, pending st = v :: rest -> fst (recv st) = Got v).
Proof.
  intros Hr; pose proof (Inv_reachable T st Hr) as [Hs _].
  split; [|intros v rest Ep; exact (proj1 (recv_pending T st v rest Ep))].
  unfold recv, pending.
  destruct (buffer st) as [|b bs], (queue st) as [|q qs]; simpl;
    try (split; [discriminate | intros [H _]; discriminate]).
  destruct (handles st) as [|h hs]; simpl in Hs; rewrite Hs; simpl.
  - split; [discriminate | intros [_ H]; congruence].
  - replace (Z.pos (Pos.of_succ_nat (length hs)) =? 0) with false by reflexivity.
    simpl; split; [intros _; split; [reflexivity | discriminate] | reflexivity].
Qed.

End Extras.

Definition interleaved : list (op Z) :=
  [OSend 0%nat 1; OClone 0%nat; ORecv; OSend 1%nat 2; OSend 0%nat 3; ORecv].
Definition after_interleaved : chan Z := mkChan [] 2 [3] 3 [1%nat; 0%nat] 2%nat true.
Definition two_senders_gone : list (op Z) :=
  [OSend 0%nat 1; OClone 0%nat; ODrop 0%nat; OSend 1%nat 2; ODrop 1%nat].
Definition after_two_gone : chan Z := mkChan [1; 2] 0 [] 3 [] 2%nat true.

Lemma sent_received_pending_witness :
  exec interleaved channel =
    Some (after_interleaved, [Done; Done; Recv (Got 1); Done; Done; Recv (Got 2)]) /\
  received [Done; Done; Recv (Got 1); Done; Done; Recv (Got 2)]
    ++ pending after_interleaved = [1; 2; 3].
Proof.
  split; [reflexivity|].
  exact (sent_received_pending Z interleaved channel after_interleaved
           [Done; Done; Recv (Got 1); Done; Done; Recv (Got 2)] eq_refl eq_refl).
Defined.

Lemma signals_count_witness :
  exec two_senders_gone channel =
    Some (after_two_gone, [Done; Done; Done; Done; Done]) /\
  signals after_two_gone = 3%nat.
Proof.
  split; [reflexivity|].
  exact (signals_count Z two_senders_gone after_two_gone
           [Done; Done; Done; Done; Done] eq_refl).
Defined.

Lemma no_lost_wakeup_witness :
  reachable (@channel Z) /\ recv (@channel Z) = (Blocked, channel) /\
  exec_op (OSend 0%nat 5) channel = Some (send channel 5, Done) /\
  signals (send (@channel Z) 5) = 1%nat.
Proof.
  assert (Hr : reachable (@channel Z)) by (exists [], []; reflexivity).
  split; [exact Hr|]; split; [reflexivity|]; split; [reflexivity|].
  apply (no_lost_wakeup Z (OSend 0%nat 5) channel); [exact Hr | reflexivity
         | reflexivity | simpl; discriminate].
Defined.

Lemma no_eos_while_sender_live_witness :
  reachable after_interleaved /\ fst (recv after_interleaved) <> Eos.
Proof.
  assert (Hr : reachable after_interleaved)
    by (exists interleaved, [Done; Done; Recv (Got 1); Done; Done; Recv (Got 2)];
        reflexivity).
  split; [exact Hr|].
  exact (no_eos_while_sender_live Z after_interleaved 0%nat Hr
           (or_intror (or_introl eq_refl))).
Defined.

Lemma iterate_pending_witness :
  reachable after_two_gone /\
  iter_collect 3 after_two_gone = Some ([1; 2], Eos).
Proof.
  assert (Hr : reachable after_two_gone)
    by (exists two_senders_gone, [Done; Done; Done; Done; Done]; reflexivity).
  split; [exact Hr|].
  exact (iterate_pending Z after_two_gone Hr).
Defined.

Lemma recv_blocks_iff_witness :
  reachable (@channel Z) /\ fst (recv (@channel Z)) = Blocked.
Proof.
  assert (Hr : reachable (@channel Z)) by (exists [], []; reflexivity).
  split; [exact Hr|].
  apply (proj1 (recv_blocks_iff Z channel Hr)); split; [reflexivity | discriminate].
Defined.
